(** * digraph-plot: automaton diagrams drawn with matplotlib

    A shallow embedding of [src/main.py].  The script computes where arrows
    start and end on the circular boundary of a node and hands shape
    descriptors to matplotlib.  The embedding keeps

    - the numeric code as it is written, with numpy's float64 arithmetic
      idealised as arithmetic over the real numbers [R];
    - Python keyword dictionaries as finite maps from [string] to [value];
    - the process-global "current axes" of pyplot as explicit state, threaded
      through a small state-and-exception monad;
    - [Node] objects in a heap addressed by references, so that "returns
      self" and "does not touch the node" are statements about the store.

    matplotlib and numpy are external: a patch is recorded as the arguments
    its constructor received.  Of the exceptions the calls can raise, the
    model has the [TypeError] of a call that names an argument twice and the
    [ValueError] of an "angle3" arrow whose two lines do not meet; what
    matplotlib makes of ill-formed style values is outside the model. *)

From Stdlib Require Import Reals Lra ZArith.
From stdpp Require Import gmap strings list.

Open Scope R_scope.

(** ** Python values that occur as keyword arguments *)

(** An f-string is kept as its sequence of literal and interpolated parts; the
    decimal rendering of an interpolated number is left symbolic. *)
Inductive fpart : Type :=
| Lit (s : string)
| Fmt (r : R).

Inductive value : Type :=
| VNone
| VStr (s : string)
| VFStr (parts : list fpart)
| VInt (z : Z)
| VFloat (r : R).

(** [**kwargs] *)
Abbreviation Kwargs := (gmap string value).

(** [d.get(k, None)] *)
Definition dict_get (d : Kwargs) (k : string) : value :=
  default VNone (d !! k).

(** [d.update(e)]: the entries of [e] win. *)
Definition dict_update (d e : Kwargs) : Kwargs := e ∪ d.

(** ** Module constants *)

Definition SHADOW_DIR : R := -45.
Definition SHADOW_OFFSET : R := 0.085.
Definition SHADOW_COLOR : value := VStr "gray".

Definition DEFAULT_ARROW_STYLE : Kwargs :=
  <["arrowstyle" := VStr "-|>,head_width=0.12,head_length=0.4"]>
  (<["fc" := VStr "k"]>
  (<["ec" := VStr "k"]>
  (<["lw" := VFloat 1.25]>
  (<["shrinkA" := VInt 4]>
  (<["shrinkB" := VInt 1]>
  (<["mutation_scale" := VInt 15]> ∅)))))).

(** ** Two-dimensional arrays *)

Definition point : Type := R * R.

Definition vadd (p q : point) : point := (p.1 + q.1, p.2 + q.2).
Definition vsub (p q : point) : point := (p.1 - q.1, p.2 - q.2).
(** scalar * array and array * scalar (numpy broadcasting) *)
Definition smul (c : R) (p : point) : point := (c * p.1, c * p.2).
Definition vscale (p : point) (c : R) : point := (p.1 * c, p.2 * c).

(** [np.radians] *)
Definition radians (angle : R) : R := angle * PI / 180.

(** [np.arctan2(y, x)]: the signed angle, in radians, of the vector [(x, y)],
    in the interval (-pi, pi]; [arctan2(0, 0) = 0]. *)
Definition arctan2 (y x : R) : R :=
  if Rlt_dec 0 x then atan (y / x)
  else if Rlt_dec x 0 then
         if Rle_dec 0 y then atan (y / x) + PI else atan (y / x) - PI
  else if Rlt_dec 0 y then PI / 2
  else if Rlt_dec y 0 then - (PI / 2)
  else 0.

(** Angle in degrees to a unit vector in 2D. *)
Definition dir2d (angle : R) : point :=
  let theta := radians angle in
  (cos theta, sin theta).

(** ** Shapes, the drawing surface and the store *)

Inductive Patch : Type :=
| Circle (center : point) (r : R) (kw : Kwargs)
| Shadow (patch : Patch) (ox oy : R) (kw : Kwargs)
| FancyArrowPatch (posA posB : point) (params : Kwargs).

Record Text : Type := mkText {
  text_x : R;
  text_y : R;
  text_s : string;
  text_kw : Kwargs
}.

Record Axes : Type := mkAxes {
  patches : list Patch;
  texts : list Text;
  aspect : string;
  axison : bool
}.

Record Node : Type := mkNode {
  xy : point;
  label : string;
  accept : bool;
  radius : R
}.

(** References to [Node] objects. *)
Definition ref : Type := nat.

Record World : Type := mkWorld {
  heap : list Node;
  gca : Axes;
  files : list (string * Z * Axes)
}.

Definition new_axes : Axes := mkAxes [] [] "auto" true.
Definition empty_world : World := mkWorld [] new_axes [].

Definition with_gca (f : Axes → Axes) (w : World) : World :=
  mkWorld (heap w) (f (gca w)) (files w).

(** ** Computations: state and exceptions *)

Inductive exn : Type :=
| TypeError (msg : string)
| ValueError (msg : string)
| InvalidRef.  (* a reference that no constructor call returned *)

Inductive Result (A : Type) : Type :=
| Ok (a : A)
| Raise (e : exn).
Arguments Ok {A} a.
Arguments Raise {A} e.

Definition M (A : Type) : Type := World → Result A * World.

Definition ret {A} (a : A) : M A := λ w, (Ok a, w).
Definition raise {A} (e : exn) : M A := λ w, (Raise e, w).
Definition bind {A B} (c : M A) (k : A → M B) : M B :=
  λ w, match c w with
       | (Ok a, w') => k a w'
       | (Raise e, w') => (Raise e, w')
       end.

Notation "x <- c ;; k" := (bind c (λ x, k))
  (at level 100, c at next level, right associativity).
Notation "c ;;; k" := (bind c (λ _, k))
  (at level 100, right associativity).

(** [for x in xs: body(x)] *)
Fixpoint for_each {A} (xs : list A) (body : A → M unit) : M unit :=
  match xs with
  | [] => ret tt
  | x :: rest => body x ;;; for_each rest body
  end.

(** Attribute access through a reference. *)
Definition deref (r : ref) : M Node :=
  λ w, match heap w !! r with
       | Some n => (Ok n, w)
       | None => (Raise InvalidRef, w)
       end.

(** [plt.gca().add_patch(p)] *)
Definition add_patch (p : Patch) : M unit :=
  λ w, (Ok tt,
        with_gca (λ ax, mkAxes (patches ax ++ [p]) (texts ax)
                               (aspect ax) (axison ax)) w).

(** A call [f(..., k1=v1, ..., **kwargs)]: Python raises [TypeError] when
    [kwargs] repeats a keyword that the call site also spells out. *)
Definition call_kwargs (explicit : list (string * value)) (kwargs : Kwargs)
  : M Kwargs :=
  if decide (Forall (λ kv, kwargs !! kv.1 = None) explicit)
  then ret (dict_update kwargs (list_to_map explicit))
  else raise (TypeError "got multiple values for keyword argument").

(** A call [f(a1, ..., an, **kwargs)] of a function whose first parameters
    are named [positional]: Python raises [TypeError] when [kwargs] names a
    parameter that a positional argument already fills. *)
Definition bind_args (positional : list string) (kwargs : Kwargs) : M unit :=
  if decide (Forall (λ k, kwargs !! k = None) positional)
  then ret tt
  else raise (TypeError "got multiple values for argument").

(** [matplotlib.bezier.get_intersection] looks for the point where the line
    of direction [angleA] through the start of an "angle3" arrow meets the
    line of direction [angleB] through its end; this is the determinant it
    divides by. *)
Definition angle3_det (angleA angleB : R) : R :=
  let cosA := cos (radians angleA) in
  let sinA := sin (radians angleA) in
  let cosB := cos (radians angleB) in
  let sinB := sin (radians angleB) in
  let a := sinA in
  let b := - cosA in
  let c := sinB in
  let d := - cosB in
  a * d - b * c.

(** [plt.gca().add_patch(p)] for an arrow with the connection style
    "angle3,angleA=..,angleB=..": the axes ask the arrow for its path to
    update their limits before they keep it, and the path does not exist
    when the two lines do not meet. *)
Definition add_patch_angle3 (angleA angleB : R) (p : Patch) : M unit :=
  if Rlt_dec (Rabs (angle3_det angleA angleB)) 1e-12
  then raise (ValueError "Given lines do not intersect")
  else add_patch p.

(** [plt.text(x, y, s, **kw)] *)
Definition plt_text (x y : R) (s : string) (kw : Kwargs) : M unit :=
  λ w, (Ok tt,
        with_gca (λ ax, mkAxes (patches ax) (texts ax ++ [mkText x y s kw])
                               (aspect ax) (axison ax)) w).

(** ** The drawing helpers *)

(** Draw a circle possibly with shadow. *)
Definition draw_circle (xy : point) (radius : R) (with_shadow : bool)
    (kwargs : Kwargs) : M unit :=
  let c := Circle xy radius kwargs in
  add_patch c ;;;
  if with_shadow then
    let offset := vscale (smul radius (dir2d SHADOW_DIR)) SHADOW_OFFSET in
    let shadow :=
      Shadow c offset.1 offset.2
        (<["fc" := SHADOW_COLOR]> (<["ec" := VStr "none"]>
         (<["lw" := VInt 0]> (<["zorder" := VInt (-1)]> ∅)))) in
    add_patch shadow
  else ret tt.

(** Default arrow. *)
Definition create_arrow_patch (start end_ : point) (kwargs : Kwargs) : Patch :=
  let params := DEFAULT_ARROW_STYLE in
  let params := dict_update params kwargs in
  let color := dict_get kwargs "color" in
  let params :=
    match color with
    | VNone => params
    | _ => <["ec" := color]> (<["fc" := color]> params)
    end in
  FancyArrowPatch start end_ params.

(** [patch.set_connectionstyle(cs)] *)
Definition set_connectionstyle (cs : value) (p : Patch) : Patch :=
  match p with
  | FancyArrowPatch a b params =>
      FancyArrowPatch a b (<["connectionstyle" := cs]> params)
  | _ => p
  end.

(** ** class Node *)

(** [Node(xy, label, accept, radius)] *)
Definition Node_init (xy : point) (label : string) (accept : bool)
    (radius : R) : M ref :=
  λ w, (Ok (length (heap w)),
        mkWorld (heap w ++ [mkNode xy label accept radius]) (gca w) (files w)).

Definition draw (self : ref) (textonly : bool) (color : value)
    (kwargs : Kwargs) : M ref :=
  n <- deref self ;;
  (if negb textonly then
     if negb (accept n) then
       draw_circle (xy n) (radius n) true
         (<["fc" := color]> (<["ec" := VStr "k"]> (<["lw" := VInt 1]> ∅)))
     else
       draw_circle (xy n) (radius n) true
         (<["fc" := VStr "w"]> (<["ec" := VStr "k"]> (<["lw" := VInt 1]> ∅))) ;;;
       draw_circle (xy n) (radius n * 0.85) true
         (<["fc" := color]> (<["ec" := VStr "k"]> (<["lw" := VInt 1]> ∅)))
   else ret tt) ;;;
  (if decide (label n = "") then ret tt
   else
     kw <- call_kwargs [("ha", VStr "center"); ("va", VStr "center")] kwargs ;;
     bind_args ["x"; "y"; "s"] kwargs ;;;
     plt_text (xy n).1 (xy n).2 (label n) kw) ;;;
  ret self.

Definition arrowto (self other : ref) (kwargs : Kwargs) : M unit :=
  a <- deref self ;;
  b <- deref other ;;
  let v := vsub (xy b) (xy a) in
  let angle := arctan2 v.2 v.1 in
  let start := vadd (xy a) (smul (radius a) (dir2d angle)) in
  let end_ := vsub (xy b) (smul (radius b) (dir2d angle)) in
  bind_args ["start"; "end"] kwargs ;;;
  let patch := create_arrow_patch start end_ kwargs in
  add_patch patch.

Definition curvearrowto (self other : ref) (angleA angleB : R)
    (kwargs : Kwargs) : M unit :=
  a <- deref self ;;
  b <- deref other ;;
  let start := vadd (xy a) (smul (radius a) (dir2d angleA)) in
  let end_ := vsub (xy b) (smul (radius b) (dir2d angleB)) in
  bind_args ["start"; "end"] kwargs ;;;
  let patch := create_arrow_patch start end_ kwargs in
  let patch :=
    set_connectionstyle
      (VFStr [Lit "angle3,angleA="; Fmt angleA; Lit ",angleB="; Fmt angleB])
      patch in
  add_patch_angle3 angleA angleB patch.

Definition loop (self : ref) (deg : R) (kwargs : Kwargs) : M unit :=
  a <- deref self ;;
  let angleA := deg - 10 in
  let angleB := deg + 10 in
  let start := vadd (xy a) (smul (radius a) (dir2d angleA)) in
  let end_ := vadd (xy a) (smul (radius a) (dir2d angleB)) in
  let kwargs :=
    match dict_get kwargs "connectionstyle" with
    | VNone =>
        <["connectionstyle" :=
            VFStr [Lit "arc,angleA="; Fmt angleA; Lit ",angleB="; Fmt angleB;
                   Lit ",armA=100,armB=100,rad=30"]]> kwargs
    | _ => kwargs
    end in
  bind_args ["start"; "end"] kwargs ;;;
  let patch := create_arrow_patch start end_ kwargs in
  add_patch patch.

(** ** The example picture *)

(** [plt.gca().set_aspect(a, adjustable="box")] *)
Definition set_aspect (a : string) : M unit :=
  λ w, (Ok tt,
        with_gca (λ ax, mkAxes (patches ax) (texts ax) a (axison ax)) w).

(** [plt.axis("off")] *)
Definition axis_off : M unit :=
  λ w, (Ok tt,
        with_gca (λ ax, mkAxes (patches ax) (texts ax) (aspect ax) false) w).

(** [plt.gca().autoscale_view()] recomputes the view limits, which are not
    part of [Axes] here. *)
Definition autoscale_view : M unit := ret tt.

(** [plt.savefig(fname, dpi=dpi, bbox_inches="tight")] *)
Definition savefig (fname : string) (dpi : Z) : M unit :=
  λ w, (Ok tt, mkWorld (heap w) (gca w) (files w ++ [(fname, dpi, gca w)])).

Definition example : M unit :=
  set_aspect "equal" ;;;
  axis_off ;;;
  start_text <- Node_init (-0.7, 0) "start" true 0.15 ;;
  draw start_text true (VStr "g")
    (<["fontsize" := VInt 10]> (<["weight" := VStr "bold"]> ∅)) ;;;
  q0 <- Node_init (0, 0) "$q_0$" true 0.2 ;;
  q1 <- Node_init (1, 0) "$q_1$" true 0.2 ;;
  q2 <- Node_init (2, 0) "$q_2$" true 0.2 ;;
  q3 <- Node_init (3, 0) "$q_3$" true 0.2 ;;
  arrowto start_text q0 ∅ ;;;
  draw q0 false (VStr "r") ∅ ;;;
  for_each (zip [q0; q1; q2] [q1; q2; q3])
    (λ pq, draw pq.2 false (VStr "g") ∅ ;;; arrowto pq.1 pq.2 ∅) ;;;
  for_each [q0; q1] (λ q, loop q 90 ∅) ;;;
  curvearrowto q3 q0 250 150 (<["color" := VStr "y"]> ∅) ;;;
  curvearrowto q1 q2 (-30) 30 ∅ ;;;
  curvearrowto q3 q1 225 135 ∅ ;;;
  autoscale_view ;;;
  savefig "automata.png" 300.

(** ** Vocabulary of the specification *)

(** Euclidean distance. *)
Definition dist (p q : point) : R :=
  sqrt ((p.1 - q.1)² + (p.2 - q.2)²).

(** The point of the circle of centre [c] and radius [r] found at [angle]
    degrees, measured from the centre. *)
Definition boundary_at (c : point) (r : R) (angle : R) : point :=
  (c.1 + r * cos (angle * PI / 180), c.2 + r * sin (angle * PI / 180)).

(** The unit vector pointing from [p] to [q]. *)
Definition unit_toward (p q : point) : point :=
  let n := dist q p in ((q.1 - p.1) / n, (q.2 - p.2) / n).



(** The patches that a computation added to the current axes. *)
Definition added (w w' : World) (ps : list Patch) : Prop :=
  patches (gca w') = patches (gca w) ++ ps.

(** The world [w] after [ps] were appended to the patches of its axes, and
    after [ts] were appended to its texts. *)
Definition push_patches (ps : list Patch) (w : World) : World :=
  with_gca (λ ax, mkAxes (patches ax ++ ps) (texts ax)
                         (aspect ax) (axison ax)) w.

Definition push_texts (ts : list Text) (w : World) : World :=
  with_gca (λ ax, mkAxes (patches ax) (texts ax ++ ts)
                         (aspect ax) (axison ax)) w.

Definition is_circle (p : Patch) : bool :=
  match p with Circle _ _ _ => true | _ => false end.


(** What one call of [draw_circle] with its shadow leaves on the axes. *)
Definition drawn_circle (c : point) (r : R) (kw : Kwargs) : list Patch :=
  [Circle c r kw;
   Shadow (Circle c r kw)
     (r * cos (radians SHADOW_DIR) * SHADOW_OFFSET)
     (r * sin (radians SHADOW_DIR) * SHADOW_OFFSET)
     (<["fc" := SHADOW_COLOR]> (<["ec" := VStr "none"]>
      (<["lw" := VInt 0]> (<["zorder" := VInt (-1)]> ∅))))].

(** The keywords [fc=fill, ec="k", lw=1] of a node's circle. *)
Definition circle_style (fill : value) : Kwargs :=
  <["fc" := fill]> (<["ec" := VStr "k"]> (<["lw" := VInt 1]> ∅)).

(** The patches and the texts that one call of [draw] leaves on the axes. *)
Definition draw_patches (n : Node) (textonly : bool) (color : value)
  : list Patch :=
  if textonly then []
  else if accept n then
    drawn_circle (xy n) (radius n) (circle_style (VStr "w")) ++
    drawn_circle (xy n) (radius n * 0.85) (circle_style color)
  else drawn_circle (xy n) (radius n) (circle_style color).

Definition draw_texts (n : Node) (kwargs : Kwargs) : list Text :=
  if decide (label n = "") then []
  else [mkText (xy n).1 (xy n).2 (label n)
          (dict_update kwargs
             (list_to_map [("ha", VStr "center"); ("va", VStr "center")]))].

(** [draw] can hand [kwargs] on to [plt.text]: the node has no label, so
    that [plt.text] is not called, or [kwargs] names none of [ha] and [va],
    which [draw] passes itself, and none of the parameters [x], [y] and [s]
    of [plt.text], which the position and the label fill. *)
Definition text_kwargs_fit (n : Node) (kwargs : Kwargs) : Prop :=
  label n = "" ∨
  (kwargs !! "ha" = None ∧ kwargs !! "va" = None ∧
   kwargs !! "x" = None ∧ kwargs !! "y" = None ∧ kwargs !! "s" = None).

(** The arrow methods can hand [kwargs] on to [create_arrow_patch]: it names
    neither of the parameters [start] and [end]. *)
Definition arrow_kwargs_fit (kwargs : Kwargs) : Prop :=
  kwargs !! "start" = None ∧ kwargs !! "end" = None.

(** The two lines of an "angle3" arrow meet. *)
Definition angle3_meet (angleA angleB : R) : Prop :=
  1e-12 <= Rabs (angle3_det angleA angleB).

(** A world with a single accepting node, used to exercise the theorems. *)
Definition sample_node : Node := mkNode (0, 0) "q" true 0.2.
Definition sample_world : World := mkWorld [sample_node] new_axes [].

(** Worlds with two nodes and nothing drawn yet. *)
Definition two_nodes (a b : Node) : World := mkWorld [a; b] new_axes [].

(** [b] due east of [a], circles apart. *)
Definition east_world : World :=
  two_nodes (mkNode (0, 0) "" true 0.2) (mkNode (1, 0) "" true 0.2).

(** [b] due north of [a]. *)
Definition north_world : World :=
  two_nodes (mkNode (0, 0) "" true 1) (mkNode (0, 1) "" true 1).


(** The angle that [arrowto] computes for the arrow from [a] to [b]. *)
Definition arrow_angle (a b : Node) : R :=
  arctan2 (vsub (xy b) (xy a)).2 (vsub (xy b) (xy a)).1.

(** Where an arrow starts. *)
Definition arrow_start (p : Patch) : option point :=
  match p with
  | FancyArrowPatch posA _ _ => Some posA
  | _ => None
  end.


(** * Properties *)

(** ** Geometry *)

Section Geometry.
Implicit Types (c p q : point) (r angle : R).

Lemma dir2d_unit angle : (dir2d angle).1 ² + (dir2d angle).2 ² = 1.
Proof.
  unfold dir2d; simpl. rewrite Rplus_comm. apply sin2_cos2.
Qed.

Lemma dir2d_0 : dir2d 0 = (1, 0).
Proof.
  unfold dir2d, radians.
  replace (0 * PI / 180) with 0 by lra.
  now rewrite cos_0, sin_0.
Qed.

Lemma dist_offset c r angle :
  dist (vadd c (smul r (dir2d angle))) c = Rabs r.
Proof.
  unfold dist, vadd, smul; simpl.
  replace ((c.1 + r * cos (radians angle) - c.1)² +
           (c.2 + r * sin (radians angle) - c.2)²)
    with (r² * ((sin (radians angle))² + (cos (radians angle))²))
    by (unfold Rsqr; ring).
  rewrite sin2_cos2, Rmult_1_r. apply sqrt_Rsqr_abs.
Qed.

Lemma dist_offset_back c r angle :
  dist (vsub c (smul r (dir2d angle))) c = Rabs r.
Proof.
  unfold dist, vsub, smul; simpl.
  replace ((c.1 - r * cos (radians angle) - c.1)² +
           (c.2 - r * sin (radians angle) - c.2)²)
    with (r² * ((sin (radians angle))² + (cos (radians angle))²))
    by (unfold Rsqr; ring).
  rewrite sin2_cos2, Rmult_1_r. apply sqrt_Rsqr_abs.
Qed.



Lemma arctan2_east x : 0 < x → arctan2 0 x = 0.
Proof.
  intros Hx. unfold arctan2. destruct (Rlt_dec 0 x) as [_|]; [|done].
  replace (0 / x) with 0 by (field; lra). apply atan_0.
Qed.

Lemma arctan2_north y : 0 < y → arctan2 y 0 = PI / 2.
Proof.
  intros Hy. unfold arctan2.
  destruct (Rlt_dec 0 0) as [H|_]; [lra|].
  destruct (Rlt_dec 0 y) as [_|]; [done|done].
Qed.
End Geometry.

(** ** Running computations *)

Section Running.
Context {A B : Type}.
Implicit Types (w : World) (c : M A) (k : A → M B).

Lemma bind_ok c k w a w' : c w = (Ok a, w') → bind c k w = k a w'.
Proof. unfold bind. now intros ->. Qed.

Lemma bind_raise c k w e w' :
  c w = (Raise e, w') → bind c k w = (Raise e, w').
Proof. unfold bind. now intros ->. Qed.
End Running.

Lemma deref_ok w r n : heap w !! r = Some n → deref r w = (Ok n, w).
Proof. unfold deref. now intros ->. Qed.

Lemma add_patch_run p w : add_patch p w = (Ok tt, push_patches [p] w).
Proof. reflexivity. Qed.

Lemma plt_text_run x y s kw w :
  plt_text x y s kw w = (Ok tt, push_texts [mkText x y s kw] w).
Proof. reflexivity. Qed.

Lemma push_patches_app ps qs w :
  push_patches qs (push_patches ps w) = push_patches (ps ++ qs) w.
Proof.
  unfold push_patches, with_gca; simpl. now rewrite <- app_assoc.
Qed.

Lemma push_patches_nil w : push_patches [] w = w.
Proof.
  destruct w as [h [ps ts a o] f].
  unfold push_patches, with_gca; simpl. now rewrite app_nil_r.
Qed.

Lemma push_texts_nil w : push_texts [] w = w.
Proof.
  destruct w as [h [ps ts a o] f].
  unfold push_texts, with_gca; simpl. now rewrite app_nil_r.
Qed.

Lemma heap_push_patches ps w : heap (push_patches ps w) = heap w.
Proof. reflexivity. Qed.

Lemma heap_push_texts ts w : heap (push_texts ts w) = heap w.
Proof. reflexivity. Qed.

Lemma added_push_patches ps w : added w (push_patches ps w) ps.
Proof. reflexivity. Qed.

Lemma added_push_texts ps ts w :
  added w (push_texts ts (push_patches ps w)) ps.
Proof. reflexivity. Qed.

(** ** Circles and their shadows *)

Lemma draw_circle_run c r kw w :
  draw_circle c r true kw w =
  (Ok tt, push_patches (drawn_circle c r kw) w).
Proof.
  unfold draw_circle.
  rewrite (bind_ok _ _ _ _ _ (add_patch_run _ _)).
  rewrite add_patch_run, push_patches_app. reflexivity.
Qed.

Lemma draw_circle_plain_run c r kw w :
  draw_circle c r false kw w = (Ok tt, push_patches [Circle c r kw] w).
Proof.
  unfold draw_circle.
  now rewrite (bind_ok _ _ _ _ _ (add_patch_run _ _)).
Qed.

(** C8.  With shadows enabled, [draw_circle] adds the circle and then one
    [Shadow] of that circle, displaced by
    [radius * 0.085 * (cos(-45 deg), sin(-45 deg))], whose stacking order is
    the negative number -1, whose fill colour is gray and which has no
    outline (edge colour "none", line width 0). *)
Theorem draw_circle_shadow (c : point) (r : R) (kw : Kwargs) (w : World) :
  ∃ w' ox oy skw,
    draw_circle c r true kw w = (Ok tt, w') ∧
    added w w' [Circle c r kw; Shadow (Circle c r kw) ox oy skw] ∧
    ox = r * 0.085 * cos (-45 * PI / 180) ∧
    oy = r * 0.085 * sin (-45 * PI / 180) ∧
    skw !! "zorder" = Some (VInt (-1)) ∧ (-1 < 0)%Z ∧
    skw !! "fc" = Some (VStr "gray") ∧
    skw !! "ec" = Some (VStr "none") ∧
    skw !! "lw" = Some (VInt 0).
Proof.
  eexists _, _, _, _. split; [apply draw_circle_run|].
  split; [apply added_push_patches|].
  unfold radians, SHADOW_DIR, SHADOW_OFFSET, SHADOW_COLOR.
  repeat split; try ring; try lia; by simplify_map_eq.
Qed.

(** ** Arrow styles *)




Lemma create_arrow_patch_points start end_ kwargs :
  ∃ params, create_arrow_patch start end_ kwargs
            = FancyArrowPatch start end_ params.
Proof. unfold create_arrow_patch. eauto. Qed.








(** ** Drawing a node *)

Section Draw.
Implicit Types (w : World) (n : Node) (color : value) (kwargs : Kwargs).

(** The two halves of the body of [draw]. *)
Local Abbreviation circles_of n textonly color :=
  (if negb textonly then
     if negb (accept n) then
       draw_circle (xy n) (radius n) true
         (<["fc" := color]> (<["ec" := VStr "k"]> (<["lw" := VInt 1]> ∅)))
     else
       draw_circle (xy n) (radius n) true
         (<["fc" := VStr "w"]> (<["ec" := VStr "k"]> (<["lw" := VInt 1]> ∅))) ;;;
       draw_circle (xy n) (radius n * 0.85) true
         (<["fc" := color]> (<["ec" := VStr "k"]> (<["lw" := VInt 1]> ∅)))
   else ret tt).

Local Abbreviation text_of n kwargs :=
  (if decide (label n = "") then ret tt
   else
     kw <- call_kwargs [("ha", VStr "center"); ("va", VStr "center")] kwargs ;;
     bind_args ["x"; "y"; "s"] kwargs ;;;
     plt_text (xy n).1 (xy n).2 (label n) kw).

Lemma bind_args_ok positional kwargs w :
  Forall (λ k, kwargs !! k = None) positional →
  bind_args positional kwargs w = (Ok tt, w).
Proof. intros Hall. unfold bind_args. now rewrite decide_True. Qed.

Lemma bind_args_clash positional kwargs w k :
  k ∈ positional → is_Some (kwargs !! k) →
  ∃ msg, bind_args positional kwargs w = (Raise (TypeError msg), w).
Proof.
  intros Hk [v Hv]. eexists. unfold bind_args.
  rewrite decide_False; [reflexivity|].
  intros Hall. rewrite Forall_forall in Hall.
  specialize (Hall k Hk). congruence.
Qed.

Lemma call_kwargs_ok kwargs w :
  kwargs !! "ha" = None → kwargs !! "va" = None →
  call_kwargs [("ha", VStr "center"); ("va", VStr "center")] kwargs w =
  (Ok (dict_update kwargs
         (list_to_map [("ha", VStr "center"); ("va", VStr "center")])), w).
Proof.
  intros Hha Hva. unfold call_kwargs.
  rewrite decide_True; [reflexivity|].
  repeat constructor; assumption.
Qed.

Lemma call_kwargs_clash kwargs w :
  is_Some (kwargs !! "ha") ∨ is_Some (kwargs !! "va") →
  ∃ msg,
    call_kwargs [("ha", VStr "center"); ("va", VStr "center")] kwargs w =
    (Raise (TypeError msg), w).
Proof.
  intros Hc. eexists. unfold call_kwargs.
  rewrite decide_False; [reflexivity|].
  intros Hall. apply Forall_cons in Hall as [Hha Hall].
  apply Forall_cons in Hall as [Hva _]. simpl in *.
  destruct Hc as [[v Hv]|[v Hv]]; congruence.
Qed.

Lemma circles_run n textonly color w :
  circles_of n textonly color w =
  (Ok tt, push_patches (draw_patches n textonly color) w).
Proof.
  unfold draw_patches. destruct textonly; simpl.
  - now rewrite push_patches_nil.
  - destruct (accept n); simpl.
    + rewrite (bind_ok _ _ _ _ _ (draw_circle_run _ _ _ _)).
      now rewrite draw_circle_run, push_patches_app.
    + apply draw_circle_run.
Qed.

Lemma text_run n kwargs w :
  text_kwargs_fit n kwargs →
  text_of n kwargs w = (Ok tt, push_texts (draw_texts n kwargs) w).
Proof.
  intros Hfit. unfold draw_texts.
  destruct (decide (label n = "")) as [Hl|Hl].
  - now rewrite push_texts_nil.
  - destruct Hfit as [?|(Hha & Hva & Hx & Hy & Hs)]; [contradiction|].
    rewrite (bind_ok _ _ _ _ _ (call_kwargs_ok _ _ Hha Hva)).
    rewrite (bind_ok _ _ _ _ _ (bind_args_ok ["x"; "y"; "s"] kwargs _
               ltac:(repeat constructor; assumption))).
    reflexivity.
Qed.

Lemma draw_run w self n textonly color kwargs :
  heap w !! self = Some n →
  text_kwargs_fit n kwargs →
  draw self textonly color kwargs w =
  (Ok self,
   push_texts (draw_texts n kwargs)
     (push_patches (draw_patches n textonly color) w)).
Proof.
  intros Hn Hfit. unfold draw.
  rewrite (bind_ok _ _ _ _ _ (deref_ok _ _ _ Hn)).
  rewrite (bind_ok _ _ _ _ _ (circles_run _ _ _ _)).
  now rewrite (bind_ok _ _ _ _ _ (text_run _ _ _ Hfit)).
Qed.

(** A keyword that [draw] also spells out itself makes the call of
    [plt.text] raise, after the circles were added. *)
Lemma draw_kwargs_clash w self n textonly color kwargs :
  heap w !! self = Some n →
  label n ≠ "" →
  is_Some (kwargs !! "ha") ∨ is_Some (kwargs !! "va") →
  ∃ msg,
    draw self textonly color kwargs w =
    (Raise (TypeError msg), push_patches (draw_patches n textonly color) w).
Proof.
  intros Hn Hl Hc.
  destruct (call_kwargs_clash kwargs
              (push_patches (draw_patches n textonly color) w) Hc)
    as [msg Hmsg].
  exists msg. unfold draw.
  rewrite (bind_ok _ _ _ _ _ (deref_ok _ _ _ Hn)).
  rewrite (bind_ok _ _ _ _ _ (circles_run _ _ _ _)).
  destruct (decide (label n = "")) as [?|_]; [contradiction|].
  now rewrite (bind_raise _ _ _ _ _ (bind_raise _ _ _ _ _ Hmsg)).
Qed.
End Draw.

(** C6.  Drawn without [textonly], an accepting node gets exactly two
    circles, each from one call of [draw_circle]: an outer one of the node's
    radius filled white and an inner one of 0.85 times the radius filled with
    the given colour; a non-accepting node gets exactly one circle of the
    node's radius filled with the given colour.  In both cases [draw] returns
    [self] and leaves the store of nodes as it was.  (The call is one that
    Python accepts: for a labelled node, [kwargs] names none of [ha], [va],
    [x], [y] and [s], which the call of [plt.text] fills itself.) *)
Theorem draw_circles (w : World) (self : ref) (n : Node) (color : value)
    (kwargs : Kwargs) :
  heap w !! self = Some n →
  text_kwargs_fit n kwargs →
  ∃ w' ps,
    draw self false color kwargs w = (Ok self, w') ∧
    heap w' = heap w ∧
    added w w' ps ∧
    ps = (if accept n
          then drawn_circle (xy n) (radius n) (circle_style (VStr "w")) ++
               drawn_circle (xy n) (radius n * 0.85) (circle_style color)
          else drawn_circle (xy n) (radius n) (circle_style color)) ∧
    List.filter is_circle ps =
      (if accept n
       then [Circle (xy n) (radius n) (circle_style (VStr "w"));
             Circle (xy n) (radius n * 0.85) (circle_style color)]
       else [Circle (xy n) (radius n) (circle_style color)]) ∧
    circle_style (VStr "w") !! "fc" = Some (VStr "w") ∧
    circle_style color !! "fc" = Some color.
Proof.
  intros Hn Hfit. eexists _, _.
  split; [apply (draw_run _ _ _ _ _ _ Hn Hfit)|].
  split; [reflexivity|].
  split; [apply added_push_texts|].
  unfold draw_patches; simpl.
  split; [reflexivity|].
  split; [now destruct (accept n)|].
  unfold circle_style. split; by simplify_map_eq.
Qed.

Lemma draw_circles_witness :
  ∃ w' ps,
    draw 0%nat false (VStr "r") ∅ sample_world = (Ok 0%nat, w') ∧
    added sample_world w' ps ∧
    List.filter is_circle ps =
      [Circle (0, 0) 0.2 (circle_style (VStr "w"));
       Circle (0, 0) (0.2 * 0.85) (circle_style (VStr "r"))].
Proof.
  destruct (draw_circles sample_world 0%nat sample_node (VStr "r") ∅)
    as (w' & ps & Hrun & _ & Hadd & _ & Hcircles & _).
  - reflexivity.
  - right. repeat split; reflexivity.
  - exists w', ps. split; [exact Hrun|]. split; [exact Hadd|exact Hcircles].
Defined.

(** C9.  Two calls of [draw] on the same node with the same arguments each
    add the same patches and the same texts to the axes, one set after the
    other, and both leave the store of nodes, hence every field of the node,
    as it was. *)
Theorem draw_twice (w : World) (self : ref) (n : Node) (textonly : bool)
    (color : value) (kwargs : Kwargs) :
  heap w !! self = Some n →
  text_kwargs_fit n kwargs →
  ∃ w1 w2 ps ts,
    draw self textonly color kwargs w = (Ok self, w1) ∧
    draw self textonly color kwargs w1 = (Ok self, w2) ∧
    patches (gca w1) = patches (gca w) ++ ps ∧
    patches (gca w2) = patches (gca w1) ++ ps ∧
    texts (gca w1) = texts (gca w) ++ ts ∧
    texts (gca w2) = texts (gca w1) ++ ts ∧
    heap w1 = heap w ∧ heap w2 = heap w ∧
    heap w2 !! self = Some n.
Proof.
  intros Hn Hfit.
  exists (push_texts (draw_texts n kwargs)
            (push_patches (draw_patches n textonly color) w)).
  eexists. exists (draw_patches n textonly color), (draw_texts n kwargs).
  split; [apply (draw_run _ _ _ _ _ _ Hn Hfit)|].
  split; [apply (draw_run _ _ n); [exact Hn|exact Hfit]|].
  repeat split; assumption.
Qed.

Lemma draw_twice_witness :
  ∃ w1 w2 ps ts,
    draw 0%nat false (VStr "r") ∅ sample_world = (Ok 0%nat, w1) ∧
    draw 0%nat false (VStr "r") ∅ w1 = (Ok 0%nat, w2) ∧
    patches (gca w2) = (patches (gca sample_world) ++ ps) ++ ps ∧
    texts (gca w2) = (texts (gca sample_world) ++ ts) ++ ts ∧
    heap w2 !! 0%nat = Some sample_node.
Proof.
  destruct (draw_twice sample_world 0%nat sample_node false (VStr "r") ∅)
    as (w1 & w2 & ps & ts & H1 & H2 & Hp1 & Hp2 & Ht1 & Ht2 & _ & _ & Hn).
  - reflexivity.
  - right. repeat split; reflexivity.
  - exists w1, w2, ps, ts.
    rewrite <- Hp1, <- Ht1. repeat split; assumption.
Defined.

(** ** Arrows between nodes *)

Section Arrows.
Implicit Types (w : World) (a b : Node) (kwargs : Kwargs).

Lemma arrow_bind_args kwargs w :
  arrow_kwargs_fit kwargs → bind_args ["start"; "end"] kwargs w = (Ok tt, w).
Proof.
  intros [Hs He]. apply bind_args_ok. repeat constructor; assumption.
Qed.

Lemma angle3_meet_add angleA angleB p w :
  angle3_meet angleA angleB →
  add_patch_angle3 angleA angleB p w = (Ok tt, push_patches [p] w).
Proof.
  unfold angle3_meet, add_patch_angle3. intros Hmeet.
  destruct (Rlt_dec _ _) as [Hlt|_]; [lra|reflexivity].
Qed.

Lemma arrowto_run w self other a b kwargs :
  heap w !! self = Some a → heap w !! other = Some b →
  arrow_kwargs_fit kwargs →
  arrowto self other kwargs w =
  (Ok tt,
   push_patches
     [create_arrow_patch
        (vadd (xy a) (smul (radius a) (dir2d (arrow_angle a b))))
        (vsub (xy b) (smul (radius b) (dir2d (arrow_angle a b))))
        kwargs] w).
Proof.
  intros Ha Hb Hfit. unfold arrowto.
  rewrite (bind_ok _ _ _ _ _ (deref_ok _ _ _ Ha)).
  rewrite (bind_ok _ _ _ _ _ (deref_ok _ _ _ Hb)).
  now rewrite (bind_ok _ _ _ _ _ (arrow_bind_args _ _ Hfit)).
Qed.

Lemma curvearrowto_run w self other a b angleA angleB kwargs :
  heap w !! self = Some a → heap w !! other = Some b →
  arrow_kwargs_fit kwargs → angle3_meet angleA angleB →
  curvearrowto self other angleA angleB kwargs w =
  (Ok tt,
   push_patches
     [set_connectionstyle
        (VFStr [Lit "angle3,angleA="; Fmt angleA; Lit ",angleB="; Fmt angleB])
        (create_arrow_patch
           (vadd (xy a) (smul (radius a) (dir2d angleA)))
           (vsub (xy b) (smul (radius b) (dir2d angleB)))
           kwargs)] w).
Proof.
  intros Ha Hb Hfit Hmeet. unfold curvearrowto.
  rewrite (bind_ok _ _ _ _ _ (deref_ok _ _ _ Ha)).
  rewrite (bind_ok _ _ _ _ _ (deref_ok _ _ _ Hb)).
  rewrite (bind_ok _ _ _ _ _ (arrow_bind_args _ _ Hfit)).
  now apply angle3_meet_add.
Qed.

Lemma loop_run w self a deg kwargs :
  heap w !! self = Some a →
  arrow_kwargs_fit kwargs →
  loop self deg kwargs w =
  (Ok tt,
   push_patches
     [create_arrow_patch
        (vadd (xy a) (smul (radius a) (dir2d (deg - 10))))
        (vadd (xy a) (smul (radius a) (dir2d (deg + 10))))
        match dict_get kwargs "connectionstyle" with
        | VNone =>
            <["connectionstyle" :=
                VFStr [Lit "arc,angleA="; Fmt (deg - 10);
                       Lit ",angleB="; Fmt (deg + 10);
                       Lit ",armA=100,armB=100,rad=30"]]> kwargs
        | _ => kwargs
        end] w).
Proof.
  intros Ha [Hs He]. unfold loop.
  rewrite (bind_ok _ _ _ _ _ (deref_ok _ _ _ Ha)).
  erewrite bind_ok; [reflexivity|].
  apply arrow_bind_args. unfold arrow_kwargs_fit.
  destruct (dict_get kwargs "connectionstyle");
    rewrite ?lookup_insert_ne by done; now split.
Qed.

(** Whatever angle is used, the two ends of a straight arrow are on the two
    circles. *)
Lemma arrowto_on_circles w self other a b kwargs :
  heap w !! self = Some a → heap w !! other = Some b →
  arrow_kwargs_fit kwargs →
  0 <= radius a → 0 <= radius b →
  ∃ start end_ params,
    arrowto self other kwargs w =
      (Ok tt, push_patches [FancyArrowPatch start end_ params] w) ∧
    dist start (xy a) = radius a ∧ dist end_ (xy b) = radius b.
Proof.
  intros Ha Hb Hfit Hra Hrb.
  destruct (create_arrow_patch_points
              (vadd (xy a) (smul (radius a) (dir2d (arrow_angle a b))))
              (vsub (xy b) (smul (radius b) (dir2d (arrow_angle a b))))
              kwargs) as [params Hp].
  eexists _, _, params. rewrite <- Hp.
  split; [apply (arrowto_run _ _ _ _ _ _ Ha Hb Hfit)|].
  rewrite dist_offset, dist_offset_back.
  split; apply Rabs_pos_eq; assumption.
Qed.

(** Due east the angle is 0, which reads the same in degrees and radians. *)
Lemma arrow_angle_east a b :
  (xy a).2 = (xy b).2 → (xy a).1 < (xy b).1 → arrow_angle a b = 0.
Proof.
  intros Hy Hx. unfold arrow_angle, vsub; simpl.
  replace ((xy b).2 - (xy a).2) with 0 by lra.
  apply arctan2_east. lra.
Qed.

Lemma arrowto_east_run w self other a b kwargs :
  heap w !! self = Some a → heap w !! other = Some b →
  arrow_kwargs_fit kwargs →
  (xy a).2 = (xy b).2 → (xy a).1 < (xy b).1 →
  arrowto self other kwargs w =
  (Ok tt,
   push_patches
     [create_arrow_patch
        ((xy a).1 + radius a * 1, (xy a).2 + radius a * 0)
        ((xy b).1 - radius b * 1, (xy b).2 - radius b * 0)
        kwargs] w).
Proof.
  intros Ha Hb Hfit Hy Hx.
  rewrite (arrowto_run _ _ _ _ _ _ Ha Hb Hfit).
  now rewrite (arrow_angle_east _ _ Hy Hx), dir2d_0.
Qed.


Lemma arrow_kwargs_fit_empty : arrow_kwargs_fit ∅.
Proof. split; apply lookup_empty. Qed.

(** The determinant is the sine of the angle between the two lines. *)
Lemma angle3_det_sin angleA angleB :
  angle3_det angleA angleB = sin (radians (angleB - angleA)).
Proof.
  unfold angle3_det, radians.
  replace ((angleB - angleA) * PI / 180)
    with (angleB * PI / 180 - angleA * PI / 180) by field.
  rewrite sin_minus. ring.
Qed.

Lemma sin_ge_half x : PI / 6 <= x <= 5 * (PI / 6) → 1 / 2 <= sin x.
Proof.
  intros [Hlo Hhi]. pose proof PI_RGT_0 as Hpi.
  destruct (Rle_lt_dec x (PI / 2)) as [Hx|Hx].
  - destruct (Req_dec x (PI / 6)) as [->|Hne]; [rewrite sin_PI6; lra|].
    rewrite <- sin_PI6. left. apply sin_increasing_1; lra.
  - destruct (Req_dec x (5 * (PI / 6))) as [->|Hne].
    + replace (5 * (PI / 6)) with (PI - PI / 6) by field.
      rewrite sin_PI_x, sin_PI6. lra.
    + replace (1 / 2) with (sin (5 * (PI / 6))).
      * left. apply sin_decreasing_1; lra.
      * replace (5 * (PI / 6)) with (PI - PI / 6) by field.
        rewrite sin_PI_x. apply sin_PI6.
Qed.

(** Two lines that make an angle between 30 and 150 degrees meet. *)
Lemma angle3_meet_wide angleA angleB :
  30 <= Rabs (angleB - angleA) <= 150 → angle3_meet angleA angleB.
Proof.
  intros Hd. unfold angle3_meet. rewrite angle3_det_sin.
  pose proof PI_RGT_0 as Hpi.
  apply Rle_trans with (1 / 2); [lra|].
  unfold radians.
  destruct (Rcase_abs (angleB - angleA)) as [Hneg|Hpos].
  - rewrite Rabs_left in Hd by exact Hneg.
    replace ((angleB - angleA) * PI / 180)
      with (- ((angleA - angleB) * PI / 180)) by field.
    rewrite sin_neg, Rabs_Ropp.
    apply Rle_trans with (sin ((angleA - angleB) * PI / 180));
      [|apply Rle_abs].
    apply sin_ge_half. split; nra.
  - rewrite Rabs_right in Hd by exact Hpos.
    apply Rle_trans with (sin ((angleB - angleA) * PI / 180));
      [|apply Rle_abs].
    apply sin_ge_half. split; nra.
Qed.
End Arrows.

(** C1.  [arrowto] hands the angle it gets from [arctan2], which is in
    radians, to [dir2d], which reads degrees.  For a node at (0, 0) and a node
    at (0, 1), both of radius 1, the arrow should start at (0, 1), the point of
    the first circle towards the second node; the start that [arrowto]
    computes is on the first circle, but at [pi/2] degrees instead of [pi/2]
    radians, so to the right of the line through the two centres. *)
Theorem arrowto_north_off_direction :
  ∃ start end_ params,
    arrowto 0%nat 1%nat ∅ north_world =
      (Ok tt, push_patches [FancyArrowPatch start end_ params] north_world) ∧
    start = boundary_at (0, 0) 1 (PI / 2) ∧
    dist start (0, 0) = 1 ∧
    vadd (0, 0) (smul 1 (unit_toward (0, 0) (0, 1))) = (0, 1) ∧
    0 < start.1 ∧
    start ≠ (0, 1).
Proof.
  pose (a := mkNode (0, 0) "" true 1). pose (b := mkNode (0, 1) "" true 1).
  assert (Hangle : arrow_angle a b = PI / 2).
  { unfold arrow_angle, vsub; simpl.
    replace (1 - 0) with 1 by lra. replace (0 - 0) with 0 by lra.
    apply arctan2_north. lra. }
  assert (Hcos : 0 < cos (PI / 2 * PI / 180)).
  { pose proof PI_RGT_0. pose proof PI_4.
    apply cos_gt_0; nra. }
  destruct (create_arrow_patch_points
              (vadd (xy a) (smul (radius a) (dir2d (arrow_angle a b))))
              (vsub (xy b) (smul (radius b) (dir2d (arrow_angle a b))))
              ∅) as [params Hp].
  eexists _, _, params. rewrite <- Hp.
  split; [apply (arrowto_run north_world 0%nat 1%nat a b ∅ eq_refl eq_refl
                   arrow_kwargs_fit_empty)|].
  rewrite Hangle.
  split; [reflexivity|].
  split.
  { change (dist (vadd (xy a) (smul (radius a) (dir2d (PI / 2)))) (xy a) = 1).
    rewrite dist_offset. apply Rabs_pos_eq; simpl; lra. }
  split.
  { unfold unit_toward, dist, vadd, smul; simpl.
    replace ((0 - 0)² + (1 - 0)²) with 1 by (unfold Rsqr; ring).
    rewrite sqrt_1. f_equal; field. }
  assert (Hx : 0 < (vadd (xy a) (smul (radius a) (dir2d (PI / 2)))).1).
  { unfold vadd, smul, dir2d, radians; simpl. lra. }
  split; [exact Hx|].
  intros Heq. rewrite Heq in Hx. simpl in Hx. lra.
Qed.









(** ** The example *)

Lemma bind_step {A B} (c : M A) (k : A → M B) w a w' r :
  c w = (Ok a, w') → k a w' = r → bind c k w = r.
Proof. intros Hc <-. now apply bind_ok. Qed.

Lemma bind_assoc {A B C} (c : M A) (k : A → M B) (k' : B → M C) w :
  bind (bind c k) k' w = bind c (λ a, bind (k a) k') w.
Proof. unfold bind. destruct (c w) as [[a|e] w']; reflexivity. Qed.

(** Bring a world back to a record of lists after a call. *)
Ltac tidy :=
  unfold push_patches, push_texts, with_gca;
  cbn [heap gca files patches texts aspect axison app length for_each
       zip_with fst snd draw_patches drawn_circle accept xy radius negb].

(** The keywords of a call name none of the arguments it fills itself. *)
Ltac fit := repeat split; first [reflexivity | by simplify_map_eq].

(** Run the call at the head of a computation with its run lemma. *)
Ltac run_call :=
  first
    [ eapply arrowto_east_run;
      [reflexivity | reflexivity | fit | reflexivity | simpl; lra]
    | eapply draw_run; [reflexivity | right; fit]
    | eapply loop_run; [reflexivity | fit]
    | eapply curvearrowto_run;
      [reflexivity | reflexivity | fit
      | apply angle3_meet_wide;
        match goal with
        | |- _ <= Rabs ?d <= _ =>
            first [ rewrite (Rabs_pos_eq d) by lra
                  | rewrite (Rabs_left d) by lra ]
        end; lra]
    | reflexivity ].

Ltac step := rewrite ?bind_assoc; eapply bind_step; [run_call | tidy].

(** The example runs to its end without raising; [start_text] is drawn as
    text only, so the first patch of the picture is the arrow from
    [start_text] to [q0]. *)
Lemma example_runs :
  ∃ w' rest,
    example empty_world = (Ok tt, w') ∧
    patches (gca w') =
      create_arrow_patch (-0.7 + 0.15 * 1, 0 + 0.15 * 0)
                         (0 - 0.2 * 1, 0 - 0.2 * 0) ∅ :: rest ∧
    length (patches (gca w')) = 25%nat ∧
    length (files w') = 1%nat.
Proof.
  eexists _, _. unfold example, empty_world, new_axes.
  split; [repeat step; reflexivity|].
  split; [reflexivity|]. split; reflexivity.
Qed.

(** C3, counterexample.  The arrow from [start_text] to [q0] does not start
    at (0.15, 0). *)
Lemma example_first_arrow_not_at_radius :
  ¬ ∃ w' p rest,
      example empty_world = (Ok tt, w') ∧
      patches (gca w') = p :: rest ∧
      arrow_start p = Some (0.15, 0).
Proof.
  intros (w' & p & rest & Hrun & Hp & Hstart).
  destruct example_runs as (w0 & rest0 & Hrun0 & Hp0 & _).
  rewrite Hrun0 in Hrun. injection Hrun as <-.
  rewrite Hp0 in Hp. injection Hp as <- _.
  unfold create_arrow_patch in Hstart. simpl in Hstart.
  injection Hstart as Hx _. lra.
Qed.

(** C3, as the code has it.  The arrow from [start_text] to [q0] starts at
    (-0.55, 0): the position (-0.7, 0) of [start_text] moved by its radius
    0.15 along +x. *)
Theorem example_first_arrow_start :
  ∃ w' p rest,
    example empty_world = (Ok tt, w') ∧
    patches (gca w') = p :: rest ∧
    arrow_start p = Some (-0.55, 0) ∧
    vadd (-0.7, 0) (0.15, 0) = (-0.55, 0).
Proof.
  destruct example_runs as (w0 & rest0 & Hrun0 & Hp0 & _).
  eexists w0, _, rest0.
  split; [exact Hrun0|]. split; [exact Hp0|].
  unfold create_arrow_patch, vadd; simpl.
  split; [do 2 f_equal; lra|f_equal; lra].
Qed.

(** * Further properties of the drawing code *)

(** ** Directions *)

(** X1.  [dir2d] returns a vector of length 1; a full turn of 360 degrees
    gives the same vector and a half turn of 180 degrees the opposite one. *)
Theorem dir2d_unit_periodic (angle : R) :
  dist (dir2d angle) (0, 0) = 1 ∧
  dir2d (angle + 360) = dir2d angle ∧
  dir2d (angle + 180) = smul (-1) (dir2d angle).
Proof.
  split; [|split].
  - unfold dist; simpl.
    replace ((cos (radians angle) - 0)² + (sin (radians angle) - 0)²)
      with ((sin (radians angle))² + (cos (radians angle))²)
      by (unfold Rsqr; ring).
    rewrite sin2_cos2. apply sqrt_1.
  - unfold dir2d, radians.
    replace ((angle + 360) * PI / 180) with (angle * PI / 180 + 2 * PI)
      by field.
    rewrite cos_plus, sin_plus, cos_2PI, sin_2PI. f_equal; ring.
  - unfold dir2d, radians, smul; simpl.
    replace ((angle + 180) * PI / 180) with (angle * PI / 180 + PI) by field.
    rewrite cos_plus, sin_plus, cos_PI, sin_PI. f_equal; ring.
Qed.



(** ** Straight arrows *)









(** ** Loops *)






(** ** Labels and keywords of [draw] *)

(** X8.  For a labelled node, [draw] writes the label once, at the centre of
    the node, centred horizontally and vertically, and hands every other
    keyword of the caller on to the text; drawn with [textonly], the node
    gets no patch at all.  ([kwargs] names none of [ha], [va], [x], [y] and
    [s], which the call of [plt.text] fills itself.) *)
Theorem draw_label_text (w : World) (self : ref) (n : Node) (textonly : bool)
    (color : value) (kwargs : Kwargs) :
  heap w !! self = Some n →
  label n ≠ "" →
  kwargs !! "ha" = None → kwargs !! "va" = None →
  kwargs !! "x" = None → kwargs !! "y" = None → kwargs !! "s" = None →
  ∃ w' kw,
    draw self textonly color kwargs w = (Ok self, w') ∧
    texts (gca w') =
      texts (gca w) ++ [mkText (xy n).1 (xy n).2 (label n) kw] ∧
    kw !! "ha" = Some (VStr "center") ∧
    kw !! "va" = Some (VStr "center") ∧
    (∀ k, k ≠ "ha" → k ≠ "va" → kw !! k = kwargs !! k) ∧
    (textonly = true → patches (gca w') = patches (gca w)).
Proof.
  intros Hn Hl Hha Hva Hx Hy Hs.
  assert (Hfit : text_kwargs_fit n kwargs) by (right; now repeat split).
  eexists _, _. split; [apply (draw_run _ _ _ _ _ _ Hn Hfit)|].
  unfold draw_texts. rewrite decide_False by exact Hl.
  split; [reflexivity|].
  unfold dict_update; simpl.
  split; [apply lookup_union_Some_l; by simplify_map_eq|].
  split; [apply lookup_union_Some_l; by simplify_map_eq|].
  split.
  - intros k Hk1 Hk2. apply lookup_union_r.
    rewrite !lookup_insert_ne by done. apply lookup_empty.
  - intros ->. simpl. apply app_nil_r.
Qed.

Lemma draw_label_text_witness :
  ∃ w' kw,
    draw 0%nat true (VStr "g") (<["fontsize" := VInt 10]> ∅) sample_world
      = (Ok 0%nat, w') ∧
    texts (gca w') = [mkText 0 0 "q" kw] ∧
    kw !! "ha" = Some (VStr "center") ∧
    kw !! "fontsize" = Some (VInt 10) ∧
    patches (gca w') = [].
Proof.
  destruct (draw_label_text sample_world 0%nat sample_node true (VStr "g")
              (<["fontsize" := VInt 10]> ∅))
    as (w' & kw & Hrun & Htexts & Hha & _ & Hk & Hp).
  - reflexivity.
  - discriminate.
  - reflexivity.
  - reflexivity.
  - reflexivity.
  - reflexivity.
  - reflexivity.
  - exists w', kw. split; [exact Hrun|]. split; [exact Htexts|].
    split; [exact Hha|]. split.
    + rewrite (Hk "fontsize") by discriminate. apply lookup_insert_eq.
    + apply Hp. reflexivity.
Defined.

(** X9.  For a node without label, [draw] never looks at the caller's
    keywords: it succeeds whatever they are, writes no text, and with
    [textonly] leaves the whole world as it was. *)
Theorem draw_unlabelled (w : World) (self : ref) (n : Node) (textonly : bool)
    (color : value) (kwargs : Kwargs) :
  heap w !! self = Some n →
  label n = "" →
  ∃ w',
    draw self textonly color kwargs w = (Ok self, w') ∧
    texts (gca w') = texts (gca w) ∧
    (textonly = true → w' = w).
Proof.
  intros Hn Hl.
  assert (Hfit : text_kwargs_fit n kwargs) by now left.
  eexists. split; [apply (draw_run _ _ _ _ _ _ Hn Hfit)|].
  unfold draw_texts. rewrite decide_True by exact Hl.
  rewrite push_texts_nil. split; [reflexivity|].
  intros ->. apply push_patches_nil.
Qed.

Lemma draw_unlabelled_witness :
  draw 0%nat true (VStr "g") (<["ha" := VStr "left"]> ∅)
    (mkWorld [mkNode (0, 0) "" true 1] new_axes [])
  = (Ok 0%nat, mkWorld [mkNode (0, 0) "" true 1] new_axes []).
Proof.
  destruct (draw_unlabelled (mkWorld [mkNode (0, 0) "" true 1] new_axes [])
              0%nat (mkNode (0, 0) "" true 1) true (VStr "g")
              (<["ha" := VStr "left"]> ∅))
    as (w' & Hrun & _ & Hsame).
  - reflexivity.
  - reflexivity.
  - rewrite Hrun, (Hsame eq_refl). reflexivity.
Defined.

(** X10.  For a labelled node, a caller's "ha" or "va" keyword clashes with
    the one [draw] passes itself: the call raises [TypeError].  The circles
    were drawn before, so they stay on the axes; no text is written and the
    nodes are untouched. *)
Theorem draw_clash_after_circles (w : World) (self : ref) (n : Node)
    (textonly : bool) (color : value) (kwargs : Kwargs) :
  heap w !! self = Some n →
  label n ≠ "" →
  is_Some (kwargs !! "ha") ∨ is_Some (kwargs !! "va") →
  ∃ msg w',
    draw self textonly color kwargs w = (Raise (TypeError msg), w') ∧
    patches (gca w') = patches (gca w) ++ draw_patches n textonly color ∧
    texts (gca w') = texts (gca w) ∧
    heap w' = heap w ∧
    (textonly = false → patches (gca w') ≠ patches (gca w)).
Proof.
  intros Hn Hl Hc.
  destruct (draw_kwargs_clash w self n textonly color kwargs Hn Hl Hc)
    as [msg Hrun].
  eexists msg, _. split; [exact Hrun|].
  split; [reflexivity|]. split; [reflexivity|]. split; [reflexivity|].
  intros -> Heq. simpl in Heq.
  apply (f_equal length) in Heq. rewrite length_app in Heq.
  unfold draw_patches in Heq. destruct (accept n); simpl in Heq; lia.
Qed.

Lemma draw_clash_after_circles_witness :
  ∃ msg w',
    draw 0%nat false (VStr "r") (<["ha" := VStr "left"]> ∅) sample_world
      = (Raise (TypeError msg), w') ∧
    patches (gca w') ≠ patches (gca sample_world) ∧
    texts (gca w') = texts (gca sample_world).
Proof.
  destruct (draw_clash_after_circles sample_world 0%nat sample_node false
              (VStr "r") (<["ha" := VStr "left"]> ∅))
    as (msg & w' & Hrun & _ & Htexts & _ & Hp).
  - reflexivity.
  - discriminate.
  - left. rewrite lookup_insert_eq. eexists. reflexivity.
  - exists msg, w'. split; [exact Hrun|]. split; [|exact Htexts].
    apply Hp. reflexivity.
Defined.

(** ** Shadows *)

(** X11.  The shadow of a circle of positive radius lies to the lower right:
    it is moved right and down by the same amount, 0.085 times the radius in
    all. *)
Theorem shadow_lower_right (c : point) (r : R) (kw : Kwargs) (w : World) :
  0 < r →
  ∃ w' ox oy skw,
    draw_circle c r true kw w = (Ok tt, w') ∧
    added w w' [Circle c r kw; Shadow (Circle c r kw) ox oy skw] ∧
    0 < ox ∧ oy = - ox ∧
    sqrt (ox² + oy²) = 0.085 * r.
Proof.
  intros Hr. eexists _, _, _, _.
  split; [apply draw_circle_run|]. split; [apply added_push_patches|].
  unfold radians, SHADOW_DIR, SHADOW_OFFSET.
  replace (-45 * PI / 180) with (- (PI / 4)) by field.
  rewrite cos_neg, sin_neg.
  assert (Hs : sin (PI / 4) = cos (PI / 4)) by now rewrite sin_PI4, cos_PI4.
  rewrite Hs.
  assert (Hc : 0 < cos (PI / 4)).
  { pose proof PI_RGT_0. apply cos_gt_0; lra. }
  pose proof (sin2_cos2 (PI / 4)) as H2. rewrite Hs in H2. unfold Rsqr in H2.
  split; [nra|]. split; [ring|].
  replace ((r * cos (PI / 4) * 0.085)² + (r * - cos (PI / 4) * 0.085)²)
    with ((0.085 * r)²) by (unfold Rsqr; nra).
  apply sqrt_Rsqr. lra.
Qed.

Lemma shadow_lower_right_witness :
  ∃ w' ox oy skw,
    draw_circle (0, 0) 0.2 true ∅ sample_world = (Ok tt, w') ∧
    added sample_world w'
      [Circle (0, 0) 0.2 ∅; Shadow (Circle (0, 0) 0.2 ∅) ox oy skw] ∧
    0 < ox ∧ oy = - ox ∧ sqrt (ox² + oy²) = 0.085 * 0.2.
Proof.
  apply (shadow_lower_right (0, 0) 0.2 ∅ sample_world). lra.
Defined.

(** ** Curved arrows *)





(** ** Calls that are refused *)



(** X16.  A keyword [start] or [end] makes each of [arrowto], [curvearrowto]
    and [loop] raise [TypeError] when it calls [create_arrow_patch]; nothing
    is added to the axes. *)
Theorem arrow_kwargs_clash (w : World) (self other : ref) (a b : Node)
    (kwargs : Kwargs) :
  heap w !! self = Some a → heap w !! other = Some b →
  is_Some (kwargs !! "start") ∨ is_Some (kwargs !! "end") →
  (∃ msg, arrowto self other kwargs w = (Raise (TypeError msg), w)) ∧
  (∀ angleA angleB,
     ∃ msg, curvearrowto self other angleA angleB kwargs w
            = (Raise (TypeError msg), w)) ∧
  (∀ deg, ∃ msg, loop self deg kwargs w = (Raise (TypeError msg), w)).
Proof.
  intros Ha Hb Hc.
  assert (Hclash : ∀ kw : Kwargs,
            kw !! "start" = kwargs !! "start" →
            kw !! "end" = kwargs !! "end" →
            ∃ msg, bind_args ["start"; "end"] kw w
                   = (Raise (TypeError msg), w)).
  { intros kw Hs He. destruct Hc as [Hc|Hc].
    - apply (bind_args_clash _ _ _ "start"); [repeat constructor|].
      now rewrite Hs.
    - apply (bind_args_clash _ _ _ "end"); [repeat constructor|].
      now rewrite He. }
  split; [|split].
  - destruct (Hclash kwargs eq_refl eq_refl) as [msg Hmsg].
    exists msg. unfold arrowto.
    rewrite (bind_ok _ _ _ _ _ (deref_ok _ _ _ Ha)).
    rewrite (bind_ok _ _ _ _ _ (deref_ok _ _ _ Hb)).
    now rewrite (bind_raise _ _ _ _ _ Hmsg).
  - intros angleA angleB.
    destruct (Hclash kwargs eq_refl eq_refl) as [msg Hmsg].
    exists msg. unfold curvearrowto.
    rewrite (bind_ok _ _ _ _ _ (deref_ok _ _ _ Ha)).
    rewrite (bind_ok _ _ _ _ _ (deref_ok _ _ _ Hb)).
    now rewrite (bind_raise _ _ _ _ _ Hmsg).
  - intros deg. unfold loop.
    rewrite (bind_ok _ _ _ _ _ (deref_ok _ _ _ Ha)).
    match goal with
    | |- context [bind_args _ ?kw] =>
        destruct (Hclash kw) as [msg Hmsg]
    end.
    + destruct (dict_get kwargs "connectionstyle");
        rewrite ?lookup_insert_ne by done; reflexivity.
    + destruct (dict_get kwargs "connectionstyle");
        rewrite ?lookup_insert_ne by done; reflexivity.
    + exists msg. now rewrite (bind_raise _ _ _ _ _ Hmsg).
Qed.

Lemma arrow_kwargs_clash_witness :
  ∃ msg,
    arrowto 0%nat 1%nat (<["start" := VInt 0]> ∅) east_world
    = (Raise (TypeError msg), east_world).
Proof.
  destruct (arrow_kwargs_clash east_world 0%nat 1%nat
              (mkNode (0, 0) "" true 0.2) (mkNode (1, 0) "" true 0.2)
              (<["start" := VInt 0]> ∅)) as [Harrow _].
  - reflexivity.
  - reflexivity.
  - left. rewrite lookup_insert_eq. eexists. reflexivity.
  - exact Harrow.
Defined.

(** X17.  [draw] returns only for keywords that fit: for a labelled node, as
    soon as [kwargs] names one of [ha], [va], [x], [y] and [s], the call of
    [plt.text] raises [TypeError]; the circles drawn before stay on the axes
    and no text is written. *)
Theorem draw_unfit_raises (w : World) (self : ref) (n : Node)
    (textonly : bool) (color : value) (kwargs : Kwargs) :
  heap w !! self = Some n →
  ¬ text_kwargs_fit n kwargs →
  ∃ msg,
    draw self textonly color kwargs w =
    (Raise (TypeError msg), push_patches (draw_patches n textonly color) w).
Proof.
  intros Hn Hunfit. unfold draw.
  rewrite (bind_ok _ _ _ _ _ (deref_ok _ _ _ Hn)).
  rewrite (bind_ok _ _ _ _ _ (circles_run _ _ _ _)).
  set (w1 := push_patches (draw_patches n textonly color) w).
  destruct (decide (label n = "")) as [Hl|Hl];
    [exfalso; apply Hunfit; now left|].
  destruct (kwargs !! "ha") as [v|] eqn:Hha.
  { destruct (call_kwargs_clash kwargs w1) as [msg Hmsg];
      [left; rewrite Hha; by eexists|].
    exists msg.
    now rewrite (bind_raise _ _ _ _ _ (bind_raise _ _ _ _ _ Hmsg)). }
  destruct (kwargs !! "va") as [v|] eqn:Hva.
  { destruct (call_kwargs_clash kwargs w1) as [msg Hmsg];
      [right; rewrite Hva; by eexists|].
    exists msg.
    now rewrite (bind_raise _ _ _ _ _ (bind_raise _ _ _ _ _ Hmsg)). }
  assert (Hpos : ∃ k, k ∈ ["x"; "y"; "s"] ∧ is_Some (kwargs !! k)).
  { destruct (kwargs !! "x") as [v|] eqn:Hx;
      [exists "x"; rewrite Hx; split; [repeat constructor|by eexists]|].
    destruct (kwargs !! "y") as [v|] eqn:Hy;
      [exists "y"; rewrite Hy; split; [repeat constructor|by eexists]|].
    destruct (kwargs !! "s") as [v|] eqn:Hs;
      [exists "s"; rewrite Hs; split; [repeat constructor|by eexists]|].
    exfalso. apply Hunfit. right. now repeat split. }
  destruct Hpos as (k & Hk & Hsome).
  destruct (bind_args_clash ["x"; "y"; "s"] kwargs w1 k Hk Hsome)
    as [msg Hmsg].
  exists msg.
  erewrite bind_raise; [reflexivity|].
  erewrite bind_ok; [|apply (call_kwargs_ok _ _ Hha Hva)].
  now rewrite (bind_raise _ _ _ _ _ Hmsg).
Qed.

Lemma draw_unfit_raises_witness :
  ∃ msg,
    draw 0%nat false (VStr "r") (<["x" := VInt 5]> ∅) sample_world =
    (Raise (TypeError msg),
     push_patches (draw_patches sample_node false (VStr "r")) sample_world).
Proof.
  apply (draw_unfit_raises sample_world 0%nat sample_node false (VStr "r")
           (<["x" := VInt 5]> ∅)).
  - reflexivity.
  - intros [Hl|(_ & _ & Hx & _)]; [discriminate Hl|].
    rewrite lookup_insert_eq in Hx. discriminate Hx.
Defined.
